(** * VoiceProvider: the connection / error / status coordination of
      packages/embed-react/src/index.ts (the React provider of the
      empathic voice client).

    The provider owns two pieces of React state, [status] and [error], and
    drives five collaborators (encoding, voice client, microphone, sound
    player, message store) through callbacks.  The embedding keeps the two
    pieces of state in a record, threads it through a small state monad, and
    records every call made on a collaborator (and on the user's [onError]
    callback) in a trace, in program order. *)

From stdpp Require Import base strings gmap list.

Local Open Scope string_scope.
Local Open Scope list_scope.

(** ** Data model *)

(** [VoiceError], lines 48-51: a tag and a message. *)
Inductive VoiceErrorType := socket_error | audio_error | mic_error.

Record VoiceError := { type : VoiceErrorType; message : string }.

(** [VoiceStatus], lines 53-61.  A status is a JavaScript object with a
    [value] and an optional [reason]; the type annotation promises that the
    reason is there exactly for ['error'], which [wf_status] states and the
    development proves of every status the provider ever holds. *)
Inductive StatusValue := Disconnected | Connecting | Connected | Error.

Record VoiceStatus := { value : StatusValue; reason : option string }.

Definition wf_status (st : VoiceStatus) : Prop :=
  value st = Error ↔ is_Some (reason st).

(** Modelled from the spec: the permission type belongs to the encoding
    collaborator (useEncoding.ts), which is not part of the sources at hand;
    the spec gives [getStream() -> permission: granted|denied]. *)
Inductive Permission := granted | denied.

(** How a promise settles ([Promise.allSettled], [then]/[catch]). *)
Inductive Settled := fulfilled | rejected.

#[global] Instance VoiceErrorType_eq_dec : EqDecision VoiceErrorType.
Proof. solve_decision. Defined.
#[global] Instance VoiceError_eq_dec : EqDecision VoiceError.
Proof. solve_decision. Defined.
#[global] Instance StatusValue_eq_dec : EqDecision StatusValue.
Proof. solve_decision. Defined.
#[global] Instance VoiceStatus_eq_dec : EqDecision VoiceStatus.
Proof. solve_decision. Defined.
#[global] Instance Permission_eq_dec : EqDecision Permission.
Proof. solve_decision. Defined.
#[global] Instance Settled_eq_dec : EqDecision Settled.
Proof. solve_decision. Defined.

(** Values held by a configuration object.  The provider only copies them. *)
Inductive JsValue := JsNumber (n : Z) | JsString (s : string) | JsBool (b : bool).

(** The configuration built by [createConfig(props)], line 140: a JavaScript
    object, keyed by property name. *)
Abbreviation Config := (gmap string JsValue).

(** [encodingRef.current]: the encoding collaborator's live sample rate and
    channel count. *)
Record Encoding := { sampleRate : Z; channelCount : Z }.

(** What the provider reads of its props: whether the user passed [onError]
    (line 119, [props.onError ?? noop]) and the configuration. *)
Record Props := { onError : bool; config : Config }.

(** Calls that leave the provider, in the order they are made. *)
Inductive Call :=
| UserOnError (err : VoiceError)      (* props.onError(err) *)
| GetStream                           (* getStream() *)
| ClientConnect (cfg : Config)        (* client.connect(cfg) *)
| MicStart                            (* mic.start() *)
| PlayerInit                          (* player.initPlayer() *)
| ClientDisconnect                    (* client.disconnect() *)
| PlayerStopAll                       (* player.stopAll() *)
| MicStop                             (* mic.stop() *)
| StoreDisconnect.                    (* messageStore.disconnect() *)

(** The provider's state ([useState], lines 108-113) and the trace. *)
Record State := {
  status : VoiceStatus;
  error : option VoiceError;
  trace : list Call
}.

Definition initial : State :=
  {| status := {| value := Disconnected; reason := None |};
     error := None;
     trace := [] |}.

(** ** The state monad the callbacks run in *)

Definition M (A : Type) : Type := State → A * State.

#[global] Instance M_ret : MRet M := λ A (a : A) s, (a, s).
#[global] Instance M_bind : MBind M :=
  λ A B (f : A → M B) (m : M A) s, let '(a, s') := m s in f a s'.

Definition exec {A} (m : M A) (s : State) : State := snd (m s).
Definition eval {A} (m : M A) (s : State) : A := fst (m s).

Definition get : M State := λ s, (s, s).

Definition setStatus (st : VoiceStatus) : M unit :=
  λ s, (tt, {| status := st; error := error s; trace := trace s |}).

Definition setError (err : option VoiceError) : M unit :=
  λ s, (tt, {| status := status s; error := err; trace := trace s |}).

Definition call (c : Call) : M unit :=
  λ s, (tt, {| status := status s; error := error s; trace := trace s ++ [c] |}).

(** ** The provider *)

(** [onError.current], lines 119-120: the user's callback, or [noop]. *)
Definition onError_current (p : Props) (err : VoiceError) : M unit :=
  if onError p then call (UserOnError err) else mret tt.

(** [updateError], lines 124-129. *)
Definition updateError (p : Props) (err : option VoiceError) : M unit :=
  setError err ;;
  match err with
  | Some e => onError_current p e
  | None => mret tt
  end.

(** The derived booleans, lines 114-117. *)
Definition isError (err : option VoiceError) : bool :=
  bool_decide (err ≠ None).
Definition isMicrophoneError (err : option VoiceError) : bool :=
  bool_decide (type <$> err = Some mic_error).
Definition isSocketError (err : option VoiceError) : bool :=
  bool_decide (type <$> err = Some socket_error).
Definition isAudioError (err : option VoiceError) : bool :=
  bool_decide (type <$> err = Some audio_error).

(** The context snapshot assembled at each render, lines 277-298; the fields
    borrowed from the collaborators (fft, messages, readyState, ...) are
    projections of state the provider does not own and are left out. *)
Record VoiceContext := {
  ctx_status : VoiceStatus;
  ctx_error : option VoiceError;
  ctx_isAudioError : bool;
  ctx_isError : bool;
  ctx_isMicrophoneError : bool;
  ctx_isSocketError : bool
}.

Definition ctx (s : State) : VoiceContext :=
  {| ctx_status := status s;
     ctx_error := error s;
     ctx_isAudioError := isAudioError (error s);
     ctx_isError := isError (error s);
     ctx_isMicrophoneError := isMicrophoneError (error s);
     ctx_isSocketError := isSocketError (error s) |}.

(** The collaborators' error callbacks, lines 131-138, 143-145, 190-195. *)
Definition onClientError (p : Props) (msg : string) : M unit :=
  updateError p (Some {| type := socket_error; message := msg |}).
Definition onPlayerError (p : Props) (msg : string) : M unit :=
  updateError p (Some {| type := audio_error; message := msg |}).
Definition onMicError (p : Props) (msg : string) : M unit :=
  updateError p (Some {| type := mic_error; message := msg |}).

(** [disconnectFromVoice], lines 241-246. *)
Definition disconnectFromVoice : M unit :=
  call ClientDisconnect ;;
  call PlayerStopAll ;;
  call MicStop ;;
  call StoreDisconnect.

(** [disconnect], lines 248-263.  The callback closes over [micPermission]
    and [status.value] (its dependency list, line 262): both are the values
    of the render that created the callback, and [status_value] is not
    refreshed by the [setStatus] of line 251.  [disconnectOnError] is an
    optional argument; [!disconnectOnError] holds when it is absent or
    false. *)
Definition disconnect (micPermission : Permission) (status_value : StatusValue)
    (disconnectOnError : option bool) : M unit :=
  (if decide (micPermission = denied)
   then setStatus {| value := Error; reason := Some "Microphone permission denied" |}
   else mret tt) ;;
  disconnectFromVoice ;;
  if bool_decide (status_value ≠ Error) && negb (default false disconnectOnError)
  then setStatus {| value := Disconnected; reason := None |}
  else mret tt.

(** [disconnect] as a consumer calls it: the callback of the current render,
    whose [status.value] is the current one. *)
Definition disconnect_current (micPermission : Permission)
    (disconnectOnError : option bool) : M unit :=
  s ← get ;
  disconnect micPermission (value (status s)) disconnectOnError.

(** The effect of lines 265-275.  React runs it after a render in which
    [status.value] or [error] changed; its body is guarded by a condition on
    these two alone and makes the condition false when it fires
    ([effect_settles]), so running it after every render is the same. *)
Definition effect : M unit :=
  s ← get ;
  match error s with
  | Some e =>
      if bool_decide (value (status s) ≠ Error) && bool_decide (value (status s) ≠ Disconnected)
      then setStatus {| value := Error; reason := Some (message e) |} ;;
           disconnectFromVoice
      else mret tt
  | None => mret tt
  end.

(** An [await]: the awaited call is made, the pending state updates are
    rendered and the effect runs while the caller is suspended, then the
    caller resumes with the result. *)
Definition await {A} (c : M A) : M A :=
  a ← c ; effect ;; mret a.

(** What the collaborators answer during one run of [connect]. *)
Record Outcomes := {
  getStream_result : Permission;
  encodingRef_current : Encoding;        (* read after [getStream] resolved *)
  client_connect_result : Settled;
  mic_start_result : Settled;
  player_initPlayer_result : Settled
}.

Definition getStream (o : Outcomes) : M Permission :=
  call GetStream ;; mret (getStream_result o).

(** Lines 212-216: [{...config, sampleRate: ..., channels: ...}]. *)
Definition merged_config (cfg : Config) (enc : Encoding) : Config :=
  <["channels" := JsNumber (channelCount enc)]>
    (<["sampleRate" := JsNumber (sampleRate enc)]> cfg).

(** Lines 211-218: [client.connect(...).then(() => null).catch(() => new
    Error(...))]; the result is the error, if any. *)
Definition client_connect (cfg : Config) (o : Outcomes) : M (option string) :=
  call (ClientConnect cfg) ;;
  mret (match client_connect_result o with
        | fulfilled => None
        | rejected => Some "Could not connect to the voice"
        end).

(** Lines 228-231: both calls are made, in the order of the array literal,
    and both results are waited for. *)
Definition allSettled_mic_player (o : Outcomes) : M (Settled * Settled) :=
  call MicStart ;;
  call PlayerInit ;;
  mret (mic_start_result o, player_initPlayer_result o).

(** [connect], lines 198-239. *)
Definition connect (p : Props) (o : Outcomes) : M unit :=
  updateError p None ;;
  setStatus {| value := Connecting; reason := None |} ;;
  permission ← await (getStream o) ;
  if decide (permission = denied) then
    updateError p (Some {| type := mic_error;
                           message := "Microphone permission denied" |})
  else
    err ← await (client_connect (merged_config (config p) (encodingRef_current o)) o) ;
    if err is Some _ then
      updateError p (Some {| type := socket_error;
                             message := "We could not connect to the voice. Please try again." |})
    else
      '(micPromise, playerPromise) ← await (allSettled_mic_player o) ;
      if bool_decide (micPromise = fulfilled) && bool_decide (playerPromise = fulfilled)
      then setStatus {| value := Connected; reason := None |}
      else mret tt.

(** One uninterrupted connection attempt: [connect] runs to its end with no
    other callback in between, and the last updates are rendered. *)
Definition connect_attempt (p : Props) (o : Outcomes) : M unit :=
  connect p o ;; effect.

(** ** Interleavings

    [connect] is suspended three times; while it is, any other callback may
    run.  The segments of [connect] between two suspension points are the
    units of scheduling ([connect_attempt_segments] shows that run back to
    back they are [connect_attempt]). *)

(** Lines 199-201, up to the first [await]. *)
Definition connect_start (p : Props) : M unit :=
  updateError p None ;;
  setStatus {| value := Connecting; reason := None |} ;;
  call GetStream.

(** Lines 203-216, from the permission to the second [await]; the result
    tells whether [connect] goes on. *)
Definition connect_after_getStream (p : Props) (permission : Permission)
    (enc : Encoding) : M bool :=
  if decide (permission = denied) then
    updateError p (Some {| type := mic_error;
                           message := "Microphone permission denied" |}) ;;
    mret false
  else
    call (ClientConnect (merged_config (config p) enc)) ;; mret true.

(** Lines 220-231, from the transport's answer to the third [await]. *)
Definition connect_after_client (p : Props) (result : Settled) : M bool :=
  match result with
  | rejected =>
      updateError p (Some {| type := socket_error;
                             message := "We could not connect to the voice. Please try again." |}) ;;
      mret false
  | fulfilled => call MicStart ;; call PlayerInit ;; mret true
  end.

(** Lines 233-238. *)
Definition connect_after_join (micPromise playerPromise : Settled) : M unit :=
  if bool_decide (micPromise = fulfilled) && bool_decide (playerPromise = fulfilled)
  then setStatus {| value := Connected; reason := None |}
  else mret tt.

(** What can happen to a mounted provider.  A resumption may be scheduled at
    any time and [disconnect] may be the callback of any earlier render: the
    schedules of the real provider, where a resumption follows the segment
    that suspended and overlapping [connect]s are allowed, are among these. *)
Inductive Event :=
| CallConnect
| GetStreamSettled (permission : Permission) (enc : Encoding)
| ClientConnectSettled (result : Settled)
| JoinSettled (micPromise playerPromise : Settled)
| CallDisconnect (micPermission : Permission) (status_value : StatusValue)
    (disconnectOnError : option bool)
| ClientError (msg : string)
| PlayerError (msg : string)
| MicError (msg : string).

Definition handle (p : Props) (ev : Event) : M unit :=
  match ev with
  | CallConnect => connect_start p
  | GetStreamSettled permission enc =>
      connect_after_getStream p permission enc ;; mret tt
  | ClientConnectSettled result => connect_after_client p result ;; mret tt
  | JoinSettled micPromise playerPromise =>
      connect_after_join micPromise playerPromise
  | CallDisconnect micPermission status_value disconnectOnError =>
      disconnect micPermission status_value disconnectOnError
  | ClientError msg => onClientError p msg
  | PlayerError msg => onPlayerError p msg
  | MicError msg => onMicError p msg
  end.

(** A callback runs to its end or to its next [await]; the updates are
    rendered and the effect runs. *)
Definition step (p : Props) (s : State) (ev : Event) : State :=
  exec (handle p ev ;; effect) s.

Definition run (p : Props) (evs : list Event) (s : State) : State :=
  foldl (step p) s evs.

(** The calls of a trace that are the user's [onError]. *)
Definition is_UserOnError (c : Call) : bool :=
  match c with UserOnError _ => true | _ => false end.

Definition onError_calls (t : list Call) : nat :=
  length (filter (λ c, is_UserOnError c = true) t).

Definition teardown : list Call :=
  [ClientDisconnect; PlayerStopAll; MicStop; StoreDisconnect].

(** The events of an uninterrupted attempt. *)
Definition attempt_events (o : Outcomes) : list Event :=
  CallConnect ::
  GetStreamSettled (getStream_result o) (encodingRef_current o) ::
  match getStream_result o with
  | denied => []
  | granted =>
      ClientConnectSettled (client_connect_result o) ::
      match client_connect_result o with
      | rejected => []
      | fulfilled =>
          [JoinSettled (mic_start_result o) (player_initPlayer_result o)]
      end
  end.

(** ** Named values and sample inputs *)

(** The two errors [connect] reports, lines 204-207 and 221-224. *)
Definition mic_denied : VoiceError :=
  {| type := mic_error; message := "Microphone permission denied" |}.

Definition connect_failed : VoiceError :=
  {| type := socket_error;
     message := "We could not connect to the voice. Please try again." |}.

(** Props with an [onError] callback and a three-property configuration. *)
Definition sample_props : Props :=
  {| onError := true;
     config := {[ "sampleRate" := JsNumber 48000; "channels" := JsNumber 2;
                  "hostname" := JsString "api.hume.ai" ]} |}.

(** Collaborators whose device negotiated 44.1 kHz mono. *)
Definition sample_outcomes (permission : Permission)
    (transport micStart playerInit : Settled) : Outcomes :=
  {| getStream_result := permission;
     encodingRef_current := {| sampleRate := 44100; channelCount := 1 |};
     client_connect_result := transport;
     mic_start_result := micStart;
     player_initPlayer_result := playerInit |}.

(** A provider whose [connect] is waiting for the microphone stream. *)
Definition connecting_state : State :=
  run sample_props [CallConnect] initial.

(** A provider whose [connect] went through. *)
Definition connected_state : State :=
  exec (connect_attempt sample_props
          (sample_outcomes granted fulfilled fulfilled fulfilled)) initial.

(** The same provider after the voice client reported a lost connection. *)
Definition failed_state : State :=
  run sample_props [ClientError "lost connection"] connected_state.

(** Schedules in which another callback runs while [connect] is
    suspended.  The encoding is the one of [sample_outcomes]. *)
Definition sample_encoding : Encoding :=
  {| sampleRate := 44100; channelCount := 1 |}.

(** A plain [disconnect()] while [connect] waits for the stream, which then
    comes back 'denied'. *)
Definition denied_after_disconnect : list Event :=
  [CallConnect;
   CallDisconnect granted Connecting None;
   GetStreamSettled denied sample_encoding].

(** A plain [disconnect()] while [connect] waits for the transport, which
    then rejects. *)
Definition rejected_after_disconnect : list Event :=
  [CallConnect;
   GetStreamSettled granted sample_encoding;
   CallDisconnect granted Connecting None;
   ClientConnectSettled rejected].

(** A plain [disconnect()] while [connect] waits for the join, in which the
    player then fails. *)
Definition join_rejected_after_disconnect : list Event :=
  [CallConnect;
   GetStreamSettled granted sample_encoding;
   ClientConnectSettled fulfilled;
   CallDisconnect granted Connecting None;
   JoinSettled fulfilled rejected].

(** The voice client reports an error while [connect] waits for the join,
    which then succeeds. *)
Definition join_fulfilled_after_error : list Event :=
  [CallConnect;
   GetStreamSettled granted sample_encoding;
   ClientConnectSettled fulfilled;
   ClientError "lost connection";
   JoinSettled fulfilled fulfilled].

(** An attempt during which another callback runs: [d] is scheduled after
    the first [i] events of the attempt, while [connect] is suspended. *)
Definition interrupted_attempt (i : nat) (d : Event) (o : Outcomes) : list Event :=
  take i (attempt_events o) ++ d :: drop i (attempt_events o).

(** What the user's [onError] has been told so far. *)
Definition reported (t : list Call) (msg : string) : Prop :=
  ∃ e : VoiceError, UserOnError e ∈ t ∧ message e = msg.

(** The two facts that [status_reason_was_reported] carries along a run. *)
Definition reasons_reported (s : State) : Prop :=
  (∀ e, error s = Some e → UserOnError e ∈ trace s) ∧
  (∀ msg, status s = {| value := Error; reason := Some msg |} →
     msg = "Microphone permission denied" ∨ reported (trace s) msg).

(** ** Proof automation *)

Create HintDb provider.

(** Runs the monadic code of a goal on its (symbolic) state. *)
Ltac provider_unfold :=
  unfold exec, eval, connect_attempt, connect, await, getStream, client_connect,
    allSettled_mic_player, connect_start, connect_after_getStream,
    connect_after_client, connect_after_join, disconnect_current, disconnect,
    effect, disconnectFromVoice, onClientError, onPlayerError, onMicError,
    updateError, onError_current, setStatus, setError, call, get,
    mbind, M_bind, mret, M_ret.

Ltac provider_run := provider_unfold; cbn.

(** Settles the guards once the values they test are known. *)
Ltac provider_decide :=
  repeat (first [case_bool_decide | case_decide]; try congruence; cbn).

(** Proves that a call is not in an explicit list of calls. *)
Ltac not_called :=
  cbn; unfold teardown;
  let Hin := fresh "Hin" in
  intros Hin;
  repeat (apply elem_of_cons in Hin as [Hin | Hin]; [discriminate Hin|]);
  by apply elem_of_nil in Hin.

(** ** Basic facts *)

Lemma exec_bind {A B} (m : M A) (f : A → M B) (s : State) :
  exec (m ≫= f) s = exec (f (eval m s)) (exec m s).
Proof. unfold exec, eval, mbind, M_bind. by destruct (m s). Qed.

Lemma exec_ret {A} (a : A) (s : State) : exec (mret a) s = s.
Proof. done. Qed.

Lemma trace_disconnectFromVoice (s : State) :
  trace (exec disconnectFromVoice s) = trace s ++ teardown.
Proof. provider_run. by rewrite <- !app_assoc. Qed.

Lemma status_disconnectFromVoice (s : State) :
  status (exec disconnectFromVoice s) = status s.
Proof. done. Qed.

Lemma error_disconnectFromVoice (s : State) :
  error (exec disconnectFromVoice s) = error s.
Proof. done. Qed.

Lemma onError_calls_app (t u : list Call) :
  onError_calls (t ++ u) = onError_calls t + onError_calls u.
Proof. unfold onError_calls. by rewrite filter_app, length_app. Qed.

(** ** [updateError] *)

Lemma error_updateError (p : Props) (err : option VoiceError) (s : State) :
  error (exec (updateError p err) s) = err.
Proof. provider_run. destruct err; [|done]. by destruct (onError p). Qed.

Lemma status_updateError (p : Props) (err : option VoiceError) (s : State) :
  status (exec (updateError p err) s) = status s.
Proof. provider_run. destruct err; [|done]. by destruct (onError p). Qed.

Lemma trace_updateError (p : Props) (err : option VoiceError) (s : State) :
  trace (exec (updateError p err) s) =
  trace s ++ match err with
             | Some e => if onError p then [UserOnError e] else []
             | None => []
             end.
Proof.
  provider_run. destruct err; cbn; [|by rewrite app_nil_r].
  destruct (onError p); cbn; [done|by rewrite app_nil_r].
Qed.

(** C8: [updateError err] sets the error state to [err]; when the user
    supplied an [onError] callback it is called exactly once with the error
    if [err] is not null (the trace grows by that one call and nothing else),
    and no call at all is made if [err] is null. *)
Theorem updateError_sets_and_notifies (p : Props) (err : option VoiceError) (s : State) :
  onError p = true →
  let s' := exec (updateError p err) s in
  error s' = err ∧
  status s' = status s ∧
  match err with
  | Some e =>
      trace s' = trace s ++ [UserOnError e] ∧
      onError_calls (trace s') = onError_calls (trace s) + 1
  | None =>
      trace s' = trace s ∧
      onError_calls (trace s') = onError_calls (trace s)
  end.
Proof.
  intros Hp s'. subst s'.
  rewrite error_updateError, status_updateError, trace_updateError, Hp.
  split; [done|]. split; [done|].
  destruct err as [e|].
  - split; [done|]. by rewrite onError_calls_app.
  - by rewrite app_nil_r.
Qed.

Lemma updateError_sets_and_notifies_witness :
  onError sample_props = true ∧
  error (exec (updateError sample_props (Some connect_failed)) connecting_state) =
    Some connect_failed ∧
  trace (exec (updateError sample_props (Some connect_failed)) connecting_state) =
    [GetStream; UserOnError connect_failed] ∧
  error (exec (updateError sample_props None) failed_state) = None ∧
  trace (exec (updateError sample_props None) failed_state) = trace failed_state.
Proof.
  split; [reflexivity|].
  pose proof (updateError_sets_and_notifies sample_props (Some connect_failed)
                connecting_state eq_refl) as (He & _ & Ht & _).
  pose proof (updateError_sets_and_notifies sample_props None
                failed_state eq_refl) as (Hn & _ & Hu & _).
  repeat split; assumption.
Defined.

(** Without a user callback [onError.current] is [noop]: the error is set
    and nothing is called. *)
Lemma updateError_noop (p : Props) (err : option VoiceError) (s : State) :
  onError p = false →
  error (exec (updateError p err) s) = err ∧
  trace (exec (updateError p err) s) = trace s.
Proof.
  intros Hp. rewrite error_updateError, trace_updateError, Hp.
  split; [done|]. destruct err; by rewrite app_nil_r.
Qed.

(** ** The context snapshot *)

(** C9: in the context snapshot [isError] holds exactly when [error] is not
    null; for a non-null error each of [isSocketError], [isAudioError],
    [isMicrophoneError] holds exactly when it is the one of [error.type], so
    exactly one of the three holds; for a null error none does. *)
Theorem ctx_error_flags (s : State) :
  let c := ctx s in
  (ctx_isError c = true ↔ ctx_error c ≠ None) ∧
  match ctx_error c with
  | Some e =>
      (ctx_isSocketError c = true ↔ type e = socket_error) ∧
      (ctx_isAudioError c = true ↔ type e = audio_error) ∧
      (ctx_isMicrophoneError c = true ↔ type e = mic_error) ∧
      length (filter (λ b : bool, b = true)
                [ctx_isSocketError c; ctx_isAudioError c; ctx_isMicrophoneError c]) = 1
  | None =>
      ctx_isSocketError c = false ∧ ctx_isAudioError c = false ∧
      ctx_isMicrophoneError c = false
  end.
Proof.
  cbn. split.
  - unfold isError. by rewrite bool_decide_eq_true.
  - destruct (error s) as [[[] msg]|]; cbn; repeat split; try done.
Qed.

(** ** The effect *)

Lemma effect_fires (e : VoiceError) (s : State) :
  error s = Some e →
  value (status s) = Connecting ∨ value (status s) = Connected →
  exec effect s =
  {| status := {| value := Error; reason := Some (message e) |};
     error := Some e;
     trace := trace s ++ teardown |}.
Proof.
  intros He Hv. provider_run. rewrite He.
  destruct Hv as [-> | ->]; provider_decide; f_equal; by rewrite <- ?app_assoc.
Qed.

Lemma effect_idle (s : State) :
  error s = None ∨ value (status s) = Disconnected ∨ value (status s) = Error →
  exec effect s = s.
Proof.
  intros H. provider_run. destruct (error s) as [e|]; [|done].
  destruct H as [H | [-> | ->]]; by provider_decide.
Qed.

(** Once the effect has run it has nothing left to do: the render that its
    own [setStatus] causes does not fire it again. *)
Lemma effect_settles (s : State) :
  exec effect (exec effect s) = exec effect s.
Proof.
  apply effect_idle.
  destruct (error s) as [e|] eqn:He.
  - destruct (value (status s)) eqn:Hv.
    + rewrite effect_idle by auto. auto.
    + rewrite (effect_fires e) by auto. auto.
    + rewrite (effect_fires e) by auto. auto.
    + rewrite effect_idle by auto. auto.
  - rewrite effect_idle by auto. auto.
Qed.

(** C3: when the error becomes non-null ([updateError] with an error, the
    one way it does) while the status is 'connecting' or 'connected', the
    effect that follows sets the status to [{value:'error', reason:
    error.message}] and calls, with no [disconnect()] involved,
    [client.disconnect], [player.stopAll], [mic.stop] and
    [messageStore.disconnect]. *)
Theorem reactive_failover (p : Props) (e : VoiceError) (s : State) :
  value (status s) = Connecting ∨ value (status s) = Connected →
  let s' := exec (updateError p (Some e) ;; effect) s in
  status s' = {| value := Error; reason := Some (message e) |} ∧
  error s' = Some e ∧
  trace s' =
    trace s ++ (if onError p then [UserOnError e] else []) ++
    [ClientDisconnect; PlayerStopAll; MicStop; StoreDisconnect].
Proof.
  intros Hv s'. subst s'. rewrite exec_bind.
  rewrite (effect_fires e).
  - cbn. rewrite trace_updateError. by rewrite <- app_assoc.
  - apply error_updateError.
  - by rewrite status_updateError.
Qed.

Lemma reactive_failover_witness :
  (value (status connected_state) = Connecting ∨
   value (status connected_state) = Connected) ∧
  status (exec (onClientError sample_props "lost connection" ;; effect)
            connected_state) =
    {| value := Error; reason := Some "lost connection" |} ∧
  trace (exec (onClientError sample_props "lost connection" ;; effect)
           connected_state) =
    trace connected_state ++
    [UserOnError {| type := socket_error; message := "lost connection" |};
     ClientDisconnect; PlayerStopAll; MicStop; StoreDisconnect].
Proof.
  assert (Hs : value (status connected_state) = Connecting ∨
               value (status connected_state) = Connected)
    by (right; reflexivity).
  split; [exact Hs|].
  pose proof (reactive_failover sample_props
                {| type := socket_error; message := "lost connection" |}
                connected_state Hs) as (Hst & _ & Htr).
  split; [exact Hst | exact Htr].
Defined.

(** C10: when the error becomes non-null while the status is 'disconnected'
    or already 'error', the effect does nothing: the status is unchanged and
    no collaborator is torn down (the trace grows by the user's [onError]
    call, if there is one, and by nothing else). *)
Theorem no_failover_when_idle (p : Props) (e : VoiceError) (s : State) :
  value (status s) = Disconnected ∨ value (status s) = Error →
  let s' := exec (updateError p (Some e) ;; effect) s in
  status s' = status s ∧
  error s' = Some e ∧
  trace s' = trace s ++ (if onError p then [UserOnError e] else []).
Proof.
  intros Hv s'. subst s'. rewrite exec_bind.
  rewrite effect_idle.
  - by rewrite status_updateError, error_updateError, trace_updateError.
  - right. by rewrite status_updateError.
Qed.

Lemma no_failover_when_idle_witness :
  (value (status initial) = Disconnected ∨ value (status initial) = Error) ∧
  status (exec (onPlayerError sample_props "decode failed" ;; effect) initial) =
    status initial ∧
  trace (exec (onPlayerError sample_props "decode failed" ;; effect) initial) =
    [UserOnError {| type := audio_error; message := "decode failed" |}] ∧
  (value (status failed_state) = Disconnected ∨
   value (status failed_state) = Error) ∧
  status (exec (onPlayerError sample_props "decode failed" ;; effect) failed_state) =
    status failed_state ∧
  trace (exec (onPlayerError sample_props "decode failed" ;; effect) failed_state) =
    trace failed_state ++
    [UserOnError {| type := audio_error; message := "decode failed" |}].
Proof.
  assert (Hi : value (status initial) = Disconnected ∨ value (status initial) = Error)
    by (left; reflexivity).
  assert (Hf : value (status failed_state) = Disconnected ∨
               value (status failed_state) = Error)
    by (right; reflexivity).
  pose proof (no_failover_when_idle sample_props
                {| type := audio_error; message := "decode failed" |}
                initial Hi) as (Hi1 & _ & Hi2).
  pose proof (no_failover_when_idle sample_props
                {| type := audio_error; message := "decode failed" |}
                failed_state Hf) as (Hf1 & _ & Hf2).
  repeat split; assumption.
Defined.

(** ** [disconnect] *)

Lemma trace_disconnect (micPermission : Permission) (status_value : StatusValue)
    (disconnectOnError : option bool) (s : State) :
  trace (exec (disconnect micPermission status_value disconnectOnError) s) =
  trace s ++ teardown.
Proof.
  provider_run.
  destruct micPermission, status_value, disconnectOnError as [[]|];
    provider_decide; by rewrite <- ?app_assoc.
Qed.

Lemma status_disconnect (micPermission : Permission) (status_value : StatusValue)
    (disconnectOnError : option bool) (s : State) :
  status (exec (disconnect micPermission status_value disconnectOnError) s) =
  if bool_decide (status_value ≠ Error) && negb (default false disconnectOnError)
  then {| value := Disconnected; reason := None |}
  else if decide (micPermission = denied)
       then {| value := Error; reason := Some "Microphone permission denied" |}
       else status s.
Proof.
  provider_run.
  destruct micPermission, status_value, disconnectOnError as [[]|];
    by provider_decide.
Qed.

(** With the permission denied the error status of line 251 stands when the
    status was 'error' already or [disconnectOnError] is true. *)
Lemma disconnect_denied_error (disconnectOnError : option bool) (s : State) :
  value (status s) = Error ∨ disconnectOnError = Some true →
  status (exec (disconnect_current denied disconnectOnError) s) =
  {| value := Error; reason := Some "Microphone permission denied" |}.
Proof.
  intros H. change (exec (disconnect_current denied disconnectOnError) s)
    with (exec (disconnect denied (value (status s)) disconnectOnError) s).
  rewrite status_disconnect.
  destruct H as [-> | ->]; [|destruct (value (status s))];
    provider_decide; done.
Qed.

(** C1 (the code departs from the claim): with the microphone permission
    'denied', a plain [disconnect()] on a provider that is 'connecting' ends
    in [{value:'disconnected'}], not in [{value:'error', reason:'Microphone
    permission denied'}]: the [setStatus] of line 251 is overwritten by the
    one of line 259, whose guard reads the [status.value] of the render. *)
Theorem disconnect_denied_ends_disconnected :
  status (exec (disconnect_current denied None) connecting_state) =
    {| value := Disconnected; reason := None |} ∧
  status (exec (disconnect_current denied None) connecting_state) ≠
    {| value := Error; reason := Some "Microphone permission denied" |}.
Proof. split; [reflexivity | discriminate]. Qed.

(** The same for every status but 'error' and every falsy argument. *)
Lemma disconnect_denied_clean (disconnectOnError : option bool) (s : State) :
  value (status s) ≠ Error →
  default false disconnectOnError = false →
  status (exec (disconnect_current denied disconnectOnError) s) =
  {| value := Disconnected; reason := None |}.
Proof.
  intros Hv Ha. change (exec (disconnect_current denied disconnectOnError) s)
    with (exec (disconnect denied (value (status s)) disconnectOnError) s).
  rewrite status_disconnect, Ha. by provider_decide.
Qed.

(** ** [connect] *)

(** The whole of an uninterrupted attempt, by what the collaborators
    answer. *)
Lemma connect_attempt_denied (p : Props) (o : Outcomes) (s : State) :
  getStream_result o = denied →
  exec (connect_attempt p o) s =
  {| status := {| value := Error; reason := Some "Microphone permission denied" |};
     error := Some mic_denied;
     trace := trace s ++ [GetStream] ++
              (if onError p then [UserOnError mic_denied] else []) ++ teardown |}.
Proof.
  destruct o as [perm enc tr mic pl]; cbn; intros ->.
  destruct (onError p) eqn:Hp; provider_run; rewrite ?Hp; cbn; provider_decide;
    f_equal; by rewrite <- ?app_assoc.
Qed.

Lemma connect_attempt_rejected (p : Props) (o : Outcomes) (s : State) :
  getStream_result o = granted →
  client_connect_result o = rejected →
  exec (connect_attempt p o) s =
  {| status := {| value := Error;
                  reason := Some "We could not connect to the voice. Please try again." |};
     error := Some connect_failed;
     trace := trace s ++
              [GetStream; ClientConnect (merged_config (config p) (encodingRef_current o))] ++
              (if onError p then [UserOnError connect_failed] else []) ++ teardown |}.
Proof.
  destruct o as [perm enc tr mic pl]; cbn; intros -> ->.
  destruct (onError p) eqn:Hp; provider_run; rewrite ?Hp; cbn; provider_decide;
    f_equal; by rewrite <- ?app_assoc.
Qed.

Lemma connect_attempt_joined (p : Props) (o : Outcomes) (s : State) :
  getStream_result o = granted →
  client_connect_result o = fulfilled →
  exec (connect_attempt p o) s =
  {| status :=
       {| value := if bool_decide (mic_start_result o = fulfilled) &&
                      bool_decide (player_initPlayer_result o = fulfilled)
                   then Connected else Connecting;
          reason := None |};
     error := None;
     trace := trace s ++
              [GetStream; ClientConnect (merged_config (config p) (encodingRef_current o));
               MicStart; PlayerInit] |}.
Proof.
  destruct o as [perm enc tr mic pl]; cbn; intros -> ->.
  destruct mic, pl; provider_run; provider_decide; f_equal; by rewrite <- ?app_assoc.
Qed.

Lemma lookup_merged_config (cfg : Config) (enc : Encoding) :
  merged_config cfg enc !! "sampleRate" = Some (JsNumber (sampleRate enc)) ∧
  merged_config cfg enc !! "channels" = Some (JsNumber (channelCount enc)) ∧
  ∀ k : string, k ≠ "sampleRate" → k ≠ "channels" →
    merged_config cfg enc !! k = cfg !! k.
Proof.
  unfold merged_config. split; [|split].
  - rewrite lookup_insert_ne by done. apply lookup_insert_eq.
  - apply lookup_insert_eq.
  - intros k Hs Hc. by rewrite !lookup_insert_ne.
Qed.

(** The claim C4 as it is written, for every call to [connect()], fails when
    another callback runs while [connect] is suspended: after a plain
    [disconnect()] during the wait for the stream, a 'denied' permission
    stores the 'mic_error' but the effect's guard (line 269) leaves the
    status 'disconnected'. *)
Lemma connect_permission_denied_interrupted :
  GetStreamSettled denied sample_encoding ∈ denied_after_disconnect ∧
  status (run sample_props denied_after_disconnect initial) =
    {| value := Disconnected; reason := None |} ∧
  error (run sample_props denied_after_disconnect initial) = Some mic_denied ∧
  status (run sample_props denied_after_disconnect initial) ≠
    {| value := Error; reason := Some "Microphone permission denied" |}.
Proof.
  split; [|split; [reflexivity | split; [reflexivity | discriminate]]].
  unfold denied_after_disconnect. rewrite !elem_of_cons. auto.
Qed.

(** C4 (amended): when the permission request of a [connect()] yields
    'denied' and no other callback runs while [connect] is suspended, the
    attempt ends in the status [error("Microphone permission denied")], and
    none of the calls made during the attempt is [client.connect]. *)
Theorem connect_permission_denied (p : Props) (o : Outcomes) (s : State) :
  getStream_result o = denied →
  let s' := exec (connect_attempt p o) s in
  status s' = {| value := Error; reason := Some "Microphone permission denied" |} ∧
  ∃ calls : list Call,
    trace s' = trace s ++ calls ∧ ∀ cfg, (ClientConnect cfg ∉ calls).
Proof.
  intros Hd s'. subst s'. rewrite connect_attempt_denied by done. cbn.
  split; [done|]. eexists. split; [done|].
  intros cfg. destruct (onError p); not_called.
Qed.

Lemma connect_permission_denied_witness :
  getStream_result (sample_outcomes denied fulfilled fulfilled fulfilled) = denied ∧
  status (exec (connect_attempt sample_props
                  (sample_outcomes denied fulfilled fulfilled fulfilled)) initial) =
    {| value := Error; reason := Some "Microphone permission denied" |} ∧
  trace (exec (connect_attempt sample_props
                 (sample_outcomes denied fulfilled fulfilled fulfilled)) initial) =
    [GetStream; UserOnError mic_denied;
     ClientDisconnect; PlayerStopAll; MicStop; StoreDisconnect].
Proof.
  split; [reflexivity|].
  pose proof (connect_permission_denied sample_props
                (sample_outcomes denied fulfilled fulfilled fulfilled)
                initial eq_refl) as [Hst _].
  split; [exact Hst | reflexivity].
Defined.

(** The claim C5 as it is written, for every call to [connect()], fails when
    another callback runs while [connect] is suspended: after a plain
    [disconnect()] during the wait for the transport, a rejection stores the
    'socket_error' but the status stays 'disconnected'. *)
Lemma connect_transport_rejected_interrupted :
  GetStreamSettled granted sample_encoding ∈ rejected_after_disconnect ∧
  ClientConnectSettled rejected ∈ rejected_after_disconnect ∧
  status (run sample_props rejected_after_disconnect initial) =
    {| value := Disconnected; reason := None |} ∧
  error (run sample_props rejected_after_disconnect initial) = Some connect_failed ∧
  status (run sample_props rejected_after_disconnect initial) ≠
    {| value := Error;
       reason := Some "We could not connect to the voice. Please try again." |}.
Proof.
  split; [|split; [|split; [reflexivity | split; [reflexivity | discriminate]]]];
    unfold rejected_after_disconnect; rewrite !elem_of_cons; auto.
Qed.

(** C5 (amended): when the permission is granted, [client.connect] rejects
    and no other callback runs while [connect] is suspended, the attempt ends
    in the status [error("We could not connect to the voice. Please try
    again.")], and neither [mic.start] nor [player.initPlayer] is among the
    calls made during the attempt. *)
Theorem connect_transport_rejected (p : Props) (o : Outcomes) (s : State) :
  getStream_result o = granted →
  client_connect_result o = rejected →
  let s' := exec (connect_attempt p o) s in
  status s' = {| value := Error;
                 reason := Some "We could not connect to the voice. Please try again." |} ∧
  ∃ calls : list Call,
    trace s' = trace s ++ calls ∧ (MicStart ∉ calls) ∧ (PlayerInit ∉ calls).
Proof.
  intros Hg Hr s'. subst s'. rewrite connect_attempt_rejected by done. cbn.
  split; [done|]. eexists. split; [done|].
  destruct (onError p); split; not_called.
Qed.

Lemma connect_transport_rejected_witness :
  getStream_result (sample_outcomes granted rejected fulfilled fulfilled) = granted ∧
  client_connect_result (sample_outcomes granted rejected fulfilled fulfilled) =
    rejected ∧
  status (exec (connect_attempt sample_props
                  (sample_outcomes granted rejected fulfilled fulfilled))
            failed_state) =
    {| value := Error;
       reason := Some "We could not connect to the voice. Please try again." |} ∧
  trace (exec (connect_attempt sample_props
                 (sample_outcomes granted rejected fulfilled fulfilled))
           failed_state) =
    trace failed_state ++
    [GetStream;
     ClientConnect (merged_config (config sample_props)
                      {| sampleRate := 44100; channelCount := 1 |});
     UserOnError connect_failed;
     ClientDisconnect; PlayerStopAll; MicStop; StoreDisconnect].
Proof.
  split; [reflexivity|]. split; [reflexivity|].
  pose proof (connect_transport_rejected sample_props
                (sample_outcomes granted rejected fulfilled fulfilled)
                failed_state eq_refl eq_refl) as [Hst _].
  split; [exact Hst | reflexivity].
Defined.

(** The claim C2 as it is written, for every run of [connect()], fails when
    another callback runs while [connect] waits for the join.  After a plain
    [disconnect()] a rejected join leaves the status 'disconnected', not
    'connecting'; after an error of the voice client a join with both
    fulfilled ends in the status 'error', not 'connected'. *)
Lemma connect_join_interrupted :
  (status (run sample_props join_rejected_after_disconnect initial) =
     {| value := Disconnected; reason := None |} ∧
   status (run sample_props join_rejected_after_disconnect initial) ≠
     {| value := Connecting; reason := None |}) ∧
  (status (run sample_props join_fulfilled_after_error initial) =
     {| value := Error; reason := Some "lost connection" |} ∧
   value (status (run sample_props join_fulfilled_after_error initial)) ≠
     Connected).
Proof.
  split; (split; [reflexivity | discriminate]).
Qed.

(** C2 (amended): when the permission is granted, [client.connect] succeeds
    and no other callback runs while [connect] is suspended, both
    [mic.start] and [player.initPlayer] are called whatever the other one
    does, and after the attempt the status is 'connected' exactly when both
    settled fulfilled; when either settled rejected the status is the
    'connecting' that [connect] set at its start. *)
Theorem connect_joins_mic_and_player (p : Props) (o : Outcomes) (s : State) :
  getStream_result o = granted →
  client_connect_result o = fulfilled →
  let s' := exec (connect_attempt p o) s in
  (value (status s') = Connected ↔
     mic_start_result o = fulfilled ∧ player_initPlayer_result o = fulfilled) ∧
  (mic_start_result o = rejected ∨ player_initPlayer_result o = rejected →
     status s' = {| value := Connecting; reason := None |}) ∧
  trace s' =
    trace s ++
    [GetStream; ClientConnect (merged_config (config p) (encodingRef_current o));
     MicStart; PlayerInit].
Proof.
  intros Hg Hf s'. subst s'. rewrite connect_attempt_joined by done. cbn.
  split; [|split; [|done]].
  - destruct (mic_start_result o), (player_initPlayer_result o);
      provider_decide; split; (done || by intros []).
  - intros [-> | ->]; [|destruct (mic_start_result o)]; by provider_decide.
Qed.

Lemma connect_joins_mic_and_player_witness :
  getStream_result (sample_outcomes granted fulfilled fulfilled rejected) = granted ∧
  client_connect_result (sample_outcomes granted fulfilled fulfilled rejected) =
    fulfilled ∧
  status (exec (connect_attempt sample_props
                  (sample_outcomes granted fulfilled fulfilled fulfilled)) initial) =
    {| value := Connected; reason := None |} ∧
  status (exec (connect_attempt sample_props
                  (sample_outcomes granted fulfilled fulfilled rejected)) initial) =
    {| value := Connecting; reason := None |} ∧
  status (exec (connect_attempt sample_props
                  (sample_outcomes granted fulfilled rejected fulfilled)) initial) =
    {| value := Connecting; reason := None |}.
Proof.
  split; [reflexivity|]. split; [reflexivity|].
  pose proof (connect_joins_mic_and_player sample_props
                (sample_outcomes granted fulfilled fulfilled rejected) initial
                eq_refl eq_refl) as (_ & Hfr & _).
  pose proof (connect_joins_mic_and_player sample_props
                (sample_outcomes granted fulfilled rejected fulfilled) initial
                eq_refl eq_refl) as (_ & Hrf & _).
  split; [reflexivity|].
  split; [apply Hfr; right; reflexivity | apply Hrf; left; reflexivity].
Defined.

(** C7: a [connect()] that gets past the permission calls [client.connect]
    once, with a configuration whose [sampleRate] and [channels] are the
    encoding collaborator's sample rate and channel count as they are when
    the permission has resolved, and whose other properties are those of the
    user's configuration. *)
Theorem connect_sends_live_encoding (p : Props) (o : Outcomes) (s : State) :
  getStream_result o = granted →
  ∃ (cfg : Config) (rest : list Call),
    trace (exec (connect_attempt p o) s) =
      trace s ++ [GetStream; ClientConnect cfg] ++ rest ∧
    (∀ cfg', ClientConnect cfg' ∉ rest) ∧
    cfg !! "sampleRate" = Some (JsNumber (sampleRate (encodingRef_current o))) ∧
    cfg !! "channels" = Some (JsNumber (channelCount (encodingRef_current o))) ∧
    ∀ k : string, k ≠ "sampleRate" → k ≠ "channels" → cfg !! k = config p !! k.
Proof.
  intros Hg.
  exists (merged_config (config p) (encodingRef_current o)).
  destruct (client_connect_result o) eqn:Hc.
  - exists [MicStart; PlayerInit].
    rewrite connect_attempt_joined by done. cbn.
    split; [done|]. split; [intros cfg'; not_called|]. apply lookup_merged_config.
  - exists ((if onError p then [UserOnError connect_failed] else []) ++ teardown).
    rewrite connect_attempt_rejected by done. cbn.
    split; [done|].
    split; [intros cfg'; destruct (onError p); not_called|].
    apply lookup_merged_config.
Qed.

Lemma connect_sends_live_encoding_witness :
  getStream_result (sample_outcomes granted fulfilled fulfilled fulfilled) = granted ∧
  ∃ (cfg : Config) (rest : list Call),
    trace (exec (connect_attempt sample_props
                   (sample_outcomes granted fulfilled fulfilled fulfilled)) initial) =
      [GetStream; ClientConnect cfg] ++ rest ∧
    cfg !! "sampleRate" = Some (JsNumber 44100) ∧
    cfg !! "channels" = Some (JsNumber 1) ∧
    cfg !! "hostname" = Some (JsString "api.hume.ai").
Proof.
  split; [reflexivity|].
  destruct (connect_sends_live_encoding sample_props
              (sample_outcomes granted fulfilled fulfilled fulfilled)
              initial eq_refl)
    as (cfg & rest & Htr & _ & Hs & Hc & Hk).
  exists cfg, rest.
  split; [exact Htr|]. split; [exact Hs|]. split; [exact Hc|].
  rewrite Hk by discriminate. reflexivity.
Defined.

(** ** Schedules *)

(** [connect] cut at its suspension points is [connect]. *)
Lemma connect_attempt_segments (p : Props) (o : Outcomes) (s : State) :
  run p (attempt_events o) s = exec (connect_attempt p o) s.
Proof.
  destruct o as [[] enc [] mic pl]; unfold run, attempt_events, step, handle; cbn;
    destruct (onError p) eqn:Hp; provider_run; rewrite ?Hp; cbn;
    provider_decide; try done; destruct mic, pl; by provider_decide.
Qed.

Lemma run_app (p : Props) (evs evs' : list Event) (s : State) :
  run p (evs ++ evs') s = run p evs' (run p evs s).
Proof. apply foldl_app. Qed.

(** ** The status invariant *)

Lemma wf_status_effect (s : State) :
  wf_status (status s) → wf_status (status (exec effect s)).
Proof.
  intros Hwf. destruct (error s) as [e|] eqn:He.
  - destruct (value (status s)) eqn:Hv.
    + by rewrite effect_idle by auto.
    + rewrite (effect_fires e) by auto. unfold wf_status. cbn. by split.
    + rewrite (effect_fires e) by auto. unfold wf_status. cbn. by split.
    + by rewrite effect_idle by auto.
  - by rewrite effect_idle by auto.
Qed.

Lemma wf_status_Error (msg : string) :
  wf_status {| value := Error; reason := Some msg |}.
Proof. unfold wf_status. cbn. by split. Qed.

Lemma wf_status_plain (v : StatusValue) :
  v ≠ Error → wf_status {| value := v; reason := None |}.
Proof. unfold wf_status. cbn. intros Hv. split; [done | by intros [? ?]]. Qed.

#[local] Hint Resolve wf_status_Error wf_status_plain : provider.
#[local] Hint Extern 1 (_ ≠ _) => discriminate : provider.

Lemma wf_status_handle (p : Props) (ev : Event) (s : State) :
  wf_status (status s) → wf_status (status (exec (handle p ev) s)).
Proof.
  intros Hwf. destruct ev as [ | permission enc | result | mic pl
                             | micPermission v arg | msg | msg | msg ]; cbn [handle].
  - provider_run. auto with provider.
  - destruct permission; provider_run; provider_decide;
      destruct (onError p); exact Hwf.
  - destruct result; provider_run; destruct (onError p); exact Hwf.
  - destruct mic, pl; provider_run; provider_decide; auto with provider.
  - rewrite status_disconnect.
    destruct micPermission, v, arg as [[]|]; provider_decide; auto with provider.
  - unfold onClientError. by rewrite status_updateError.
  - unfold onPlayerError. by rewrite status_updateError.
  - unfold onMicError. by rewrite status_updateError.
Qed.

Lemma wf_status_step (p : Props) (s : State) (ev : Event) :
  wf_status (status s) → wf_status (status (step p s ev)).
Proof.
  intros Hwf. unfold step. rewrite exec_bind.
  by apply wf_status_effect, wf_status_handle.
Qed.

(** C6: after any sequence of [connect()] and [disconnect()] calls,
    resumptions of suspended [connect]s and collaborator errors, started from
    the initial state, the status value is one of 'disconnected',
    'connecting', 'connected', 'error', and the status has a reason string
    exactly when its value is 'error'. *)
Theorem status_always_well_formed (p : Props) (evs : list Event) :
  let st := status (run p evs initial) in
  (value st = Disconnected ∨ value st = Connecting ∨
   value st = Connected ∨ value st = Error) ∧
  (value st = Error ↔ ∃ msg : string, reason st = Some msg).
Proof.
  cbn. split.
  - destruct (value (status (run p evs initial))); auto.
  - change (wf_status (status (run p evs initial))).
    induction evs as [|ev evs IH] using rev_ind.
    + cbn. auto with provider.
    + rewrite run_app. cbn. by apply wf_status_step.
Qed.

(** ** Further properties of [disconnect] *)

(** X1: whatever the permission, the captured status and the argument,
    [disconnect] calls [client.disconnect], [player.stopAll], [mic.stop] and
    [messageStore.disconnect], once each and in this order, and leaves the
    error state as it is. *)
Theorem disconnect_always_tears_down (micPermission : Permission)
    (status_value : StatusValue) (disconnectOnError : option bool) (s : State) :
  let s' := exec (disconnect micPermission status_value disconnectOnError) s in
  trace s' = trace s ++ [ClientDisconnect; PlayerStopAll; MicStop; StoreDisconnect] ∧
  error s' = error s.
Proof.
  cbn. split; [apply trace_disconnect|].
  provider_run.
  destruct micPermission, status_value, disconnectOnError as [[]|];
    by provider_decide.
Qed.

(** X2: a [disconnect] on a provider whose status is 'error' never resets it
    to 'disconnected': with the permission granted the status and its reason
    are kept (the comment of line 257), with the permission denied the reason
    becomes 'Microphone permission denied'. *)
Theorem disconnect_keeps_error_status (micPermission : Permission)
    (disconnectOnError : option bool) (s : State) :
  value (status s) = Error →
  status (exec (disconnect_current micPermission disconnectOnError) s) =
  match micPermission with
  | granted => status s
  | denied => {| value := Error; reason := Some "Microphone permission denied" |}
  end.
Proof.
  intros Hv.
  change (exec (disconnect_current micPermission disconnectOnError) s)
    with (exec (disconnect micPermission (value (status s)) disconnectOnError) s).
  rewrite status_disconnect, Hv.
  destruct micPermission; by provider_decide.
Qed.

Lemma disconnect_keeps_error_status_witness :
  value (status failed_state) = Error ∧
  status (exec (disconnect_current granted None) failed_state) =
    {| value := Error; reason := Some "lost connection" |} ∧
  status (exec (disconnect_current denied None) failed_state) =
    {| value := Error; reason := Some "Microphone permission denied" |}.
Proof.
  split; [reflexivity|].
  split.
  - exact (disconnect_keeps_error_status granted None failed_state eq_refl).
  - exact (disconnect_keeps_error_status denied None failed_state eq_refl).
Defined.

(** X3: [disconnect(true)] with the permission granted tears the
    collaborators down and leaves the status untouched, whatever it is: a
    'connected' provider stays 'connected'. *)
Theorem disconnect_on_error_keeps_status (status_value : StatusValue) (s : State) :
  let s' := exec (disconnect granted status_value (Some true)) s in
  status s' = status s ∧ trace s' = trace s ++ teardown.
Proof.
  cbn. rewrite status_disconnect, trace_disconnect.
  split; [|done]. destruct status_value; by provider_decide.
Qed.

(** X4: [disconnect] is idempotent on what the consumer sees: a second call
    with the same permission and argument, each call followed by its render,
    leaves the status and the error of the first. *)
Theorem disconnect_twice (micPermission : Permission)
    (disconnectOnError : option bool) (s : State) :
  let s1 := exec (disconnect_current micPermission disconnectOnError ;; effect) s in
  let s2 := exec (disconnect_current micPermission disconnectOnError ;; effect) s1 in
  status s2 = status s1 ∧ error s2 = error s1.
Proof.
  destruct s as [[v r] [e|] t], micPermission, v, disconnectOnError as [[]|];
    by vm_compute.
Qed.

(** ** Further properties of the error path *)

(** X5: each collaborator's error callback files the error under its own
    kind with the message as given, so that in the next snapshot [isError]
    and exactly the flag of that collaborator are set. *)
Theorem collaborator_errors_classified (p : Props) (msg : string) (s : State) :
  let flags (s' : State) :=
    (ctx_isError (ctx s'), ctx_isSocketError (ctx s'),
     ctx_isAudioError (ctx s'), ctx_isMicrophoneError (ctx s')) in
  (error (exec (onClientError p msg) s) =
     Some {| type := socket_error; message := msg |} ∧
   flags (exec (onClientError p msg) s) = (true, true, false, false)) ∧
  (error (exec (onPlayerError p msg) s) =
     Some {| type := audio_error; message := msg |} ∧
   flags (exec (onPlayerError p msg) s) = (true, false, true, false)) ∧
  (error (exec (onMicError p msg) s) =
     Some {| type := mic_error; message := msg |} ∧
   flags (exec (onMicError p msg) s) = (true, false, false, true)).
Proof.
  cbn. unfold onClientError, onPlayerError, onMicError.
  rewrite !error_updateError. by repeat split.
Qed.

(** X6: the effect fires at most once per error: run again on the state it
    produced (the render caused by its own [setStatus]) it changes nothing,
    so the collaborators are not torn down a second time. *)
Theorem effect_fires_once (s : State) :
  exec (effect ;; effect) s = exec effect s ∧
  (trace (exec effect s) = trace s ∨ trace (exec effect s) = trace s ++ teardown).
Proof.
  rewrite exec_bind, effect_settles. split; [done|].
  destruct (error s) as [e|] eqn:He.
  - destruct (value (status s)) eqn:Hv.
    + left. by rewrite effect_idle by auto.
    + right. by rewrite (effect_fires e) by auto.
    + right. by rewrite (effect_fires e) by auto.
    + left. by rewrite effect_idle by auto.
  - left. by rewrite effect_idle by auto.
Qed.

Lemma updateError_effect_fires (p : Props) (e : VoiceError) (s : State) :
  value (status s) = Connecting ∨ value (status s) = Connected →
  exec effect (exec (updateError p (Some e)) s) =
  {| status := {| value := Error; reason := Some (message e) |};
     error := Some e;
     trace := trace s ++ (if onError p then [UserOnError e] else []) ++ teardown |}.
Proof.
  intros Hv. rewrite (effect_fires e).
  - rewrite trace_updateError. by rewrite <- app_assoc.
  - apply error_updateError.
  - by rewrite status_updateError.
Qed.

(** X7: which of two errors names the status depends on whether the effect
    runs between them.  Both are reported to a provider that is 'connecting'
    or 'connected'.  If the first is rendered and the effect runs before the
    second is reported, the status reason is the message of the first, the
    error state is the second and the collaborators are torn down between
    the two [onError] calls.  If both are reported before the effect runs
    (one batch of updates), the effect reads the second: the status reason
    is its message and the teardown follows both [onError] calls. *)
Theorem status_reason_of_two_errors (p : Props) (e1 e2 : VoiceError) (s : State) :
  value (status s) = Connecting ∨ value (status s) = Connected →
  (let s' := exec (updateError p (Some e1) ;; effect ;;
                   updateError p (Some e2) ;; effect) s in
   status s' = {| value := Error; reason := Some (message e1) |} ∧
   error s' = Some e2 ∧
   trace s' =
     trace s ++ (if onError p then [UserOnError e1] else []) ++ teardown ++
     (if onError p then [UserOnError e2] else [])) ∧
  (let s' := exec (updateError p (Some e1) ;; updateError p (Some e2) ;; effect) s in
   status s' = {| value := Error; reason := Some (message e2) |} ∧
   error s' = Some e2 ∧
   trace s' =
     trace s ++ (if onError p then [UserOnError e1] else []) ++
     (if onError p then [UserOnError e2] else []) ++ teardown).
Proof.
  intros Hv. cbv zeta. split.
  - rewrite !exec_bind. cbn [eval].
    rewrite (updateError_effect_fires p e1 s Hv), effect_idle.
    + rewrite status_updateError, error_updateError, trace_updateError. cbn.
      repeat split; try done. by rewrite <- !app_assoc.
    + right. right. by rewrite status_updateError.
  - rewrite exec_bind. cbn [eval].
    rewrite exec_bind, updateError_effect_fires
      by (by rewrite status_updateError).
    rewrite trace_updateError. repeat split; try done.
    f_equal. by rewrite <- !app_assoc.
Qed.

Lemma status_reason_of_two_errors_witness :
  (value (status connected_state) = Connecting ∨
   value (status connected_state) = Connected) ∧
  status (run sample_props [ClientError "lost connection"; MicError "device lost"]
            connected_state) =
    {| value := Error; reason := Some "lost connection" |} ∧
  error (run sample_props [ClientError "lost connection"; MicError "device lost"]
           connected_state) =
    Some {| type := mic_error; message := "device lost" |} ∧
  status (exec (onClientError sample_props "lost connection" ;;
                onMicError sample_props "device lost" ;; effect)
            connected_state) =
    {| value := Error; reason := Some "device lost" |}.
Proof.
  assert (Hs : value (status connected_state) = Connecting ∨
               value (status connected_state) = Connected)
    by (right; reflexivity).
  split; [exact Hs|].
  pose proof (status_reason_of_two_errors sample_props
                {| type := socket_error; message := "lost connection" |}
                {| type := mic_error; message := "device lost" |}
                connected_state Hs) as [(Hst & Her & _) (Hb & _ & _)].
  split; [exact Hst|]. split; [exact Her | exact Hb].
Defined.

(** ** Further invariants of the provider *)

Lemma effect_quiet (s : State) :
  error (exec effect s) ≠ None →
  value (status (exec effect s)) = Disconnected ∨
  value (status (exec effect s)) = Error.
Proof.
  destruct (error s) as [e|] eqn:He.
  - destruct (value (status s)) eqn:Hv.
    + rewrite effect_idle by auto. auto.
    + rewrite (effect_fires e) by auto. auto.
    + rewrite (effect_fires e) by auto. auto.
    + rewrite effect_idle by auto. auto.
  - rewrite effect_idle by auto. by rewrite He.
Qed.

(** X8: once the effect has run, an error and a live status do not show
    together.  In the state that any sequence of events from the initial
    state leaves after its last effect, a snapshot whose [isError] is set has
    the status 'disconnected' or 'error'.  The snapshot rendered between
    [setError] and the effect is not of this kind: it has [isError] set and
    the status of before, 'connecting' or 'connected' included. *)
Theorem error_excludes_live_status_after_effect (p : Props) (evs : list Event) :
  (let s := run p evs initial in
   ctx_isError (ctx s) = true →
   value (ctx_status (ctx s)) = Disconnected ∨ value (ctx_status (ctx s)) = Error) ∧
  (∀ (e : VoiceError) (s : State),
     let s0 := exec (updateError p (Some e)) s in
     ctx_isError (ctx s0) = true ∧ ctx_status (ctx s0) = status s).
Proof.
  split.
  - cbn. unfold isError. rewrite bool_decide_eq_true.
    destruct evs as [|ev evs _] using rev_ind.
    + by cbn.
    + rewrite run_app. cbn. unfold step. rewrite exec_bind. apply effect_quiet.
  - intros e s. cbn. by rewrite error_updateError, status_updateError.
Qed.

Lemma error_excludes_live_status_after_effect_witness :
  ctx_isError (ctx (run sample_props
                      (attempt_events (sample_outcomes granted rejected fulfilled fulfilled))
                      initial)) = true ∧
  value (status (run sample_props
                   (attempt_events (sample_outcomes granted rejected fulfilled fulfilled))
                   initial)) = Error ∧
  ctx_isError (ctx (exec (onClientError sample_props "lost connection")
                      connected_state)) = true ∧
  ctx_status (ctx (exec (onClientError sample_props "lost connection")
                     connected_state)) =
    {| value := Connected; reason := None |}.
Proof.
  split; [reflexivity|].
  destruct (error_excludes_live_status_after_effect sample_props
              (attempt_events (sample_outcomes granted rejected fulfilled fulfilled)))
    as [Hafter Hbefore].
  split.
  - destruct (Hafter eq_refl) as [Hd | He]; [discriminate Hd | exact He].
  - exact (Hbefore {| type := socket_error; message := "lost connection" |}
             connected_state).
Defined.

Lemma reasons_reported_next (s s' : State) (calls : list Call) :
  trace s' = trace s ++ calls →
  (error s' = None ∨ error s' = error s ∨
   ∃ e, error s' = Some e ∧ UserOnError e ∈ calls) →
  (status s' = status s ∨ value (status s') ≠ Error ∨
   status s' = {| value := Error; reason := Some "Microphone permission denied" |} ∨
   ∃ e, error s = Some e ∧
        status s' = {| value := Error; reason := Some (message e) |}) →
  reasons_reported s → reasons_reported s'.
Proof.
  intros Htr Herr Hst [Hs1 Hs2]. split.
  - intros e He. rewrite Htr, elem_of_app.
    destruct Herr as [Hn | [Hsame | (e' & He' & Hin)]].
    + congruence.
    + left. apply Hs1. congruence.
    + right. congruence.
  - intros msg Hmsg. rewrite Htr.
    destruct Hst as [Hsame | [Hne | [Hden | (e & He & Hfire)]]].
    + destruct (Hs2 msg) as [? | (e & Hin & Hm)]; [congruence | by left |].
      right. exists e. rewrite elem_of_app. auto.
    + rewrite Hmsg in Hne. by destruct Hne.
    + left. congruence.
    + right. exists e. rewrite elem_of_app. split; [left; by apply Hs1|].
      congruence.
Qed.

Lemma reasons_reported_effect (s : State) :
  reasons_reported s → reasons_reported (exec effect s).
Proof.
  intros Hs. destruct (error s) as [e|] eqn:He.
  - destruct (value (status s)) eqn:Hv.
    + by rewrite effect_idle by auto.
    + apply (reasons_reported_next s _ teardown); rewrite ?(effect_fires e) by auto;
        cbn; eauto 6.
    + apply (reasons_reported_next s _ teardown); rewrite ?(effect_fires e) by auto;
        cbn; eauto 6.
    + by rewrite effect_idle by auto.
  - by rewrite effect_idle by auto.
Qed.

Lemma reasons_reported_updateError (p : Props) (e : VoiceError) (s : State) :
  onError p = true →
  reasons_reported s → reasons_reported (exec (updateError p (Some e)) s).
Proof.
  intros Hp. apply (reasons_reported_next s _ [UserOnError e]).
  - by rewrite trace_updateError, Hp.
  - right. right. exists e. rewrite error_updateError. split; [done|].
    apply list_elem_of_singleton. done.
  - left. apply status_updateError.
Qed.

Lemma reasons_reported_handle (p : Props) (ev : Event) (s : State) :
  onError p = true →
  reasons_reported s → reasons_reported (exec (handle p ev) s).
Proof.
  intros Hp Hs.
  destruct ev as [ | permission enc | result | mic pl
                 | micPermission v arg | msg | msg | msg ]; cbn [handle].
  - apply (reasons_reported_next s _ [GetStream]); [done | by left |
      right; left; discriminate | done].
  - rewrite exec_bind, exec_ret. unfold connect_after_getStream.
    destruct permission; provider_decide; rewrite exec_bind, exec_ret.
    + apply (reasons_reported_next s _ [ClientConnect (merged_config (config p) enc)]);
        [done | by right; left | by left | done].
    + by apply reasons_reported_updateError.
  - rewrite exec_bind, exec_ret. unfold connect_after_client.
    destruct result; rewrite exec_bind.
    + apply (reasons_reported_next s _ [MicStart; PlayerInit]);
        [| by right; left | by left | done].
      provider_run. by rewrite <- app_assoc.
    + rewrite exec_ret. by apply reasons_reported_updateError.
  - apply (reasons_reported_next s _ []); [| | | done].
    + destruct mic, pl; provider_run; provider_decide; by rewrite app_nil_r.
    + right; left. destruct mic, pl; provider_run; by provider_decide.
    + destruct mic, pl; provider_run; provider_decide;
        first [by left | right; left; discriminate].
  - apply (reasons_reported_next s _ teardown);
      [apply trace_disconnect | | | done].
    + right; left.
      destruct micPermission, v, arg as [[]|]; provider_run; by provider_decide.
    + rewrite status_disconnect.
      destruct micPermission, v, arg as [[]|]; provider_decide;
        first [by left | by right; right; left | right; left; discriminate].
  - by apply reasons_reported_updateError.
  - by apply reasons_reported_updateError.
  - by apply reasons_reported_updateError.
Qed.

(** X9: no status reason is made up.  When the user passed [onError], a
    status 'error' reached by any sequence of events from the initial state
    carries either the fixed reason 'Microphone permission denied' or the
    message of an error that [onError] was called with. *)
Theorem status_reason_was_reported (p : Props) (evs : list Event) (msg : string) :
  onError p = true →
  status (run p evs initial) = {| value := Error; reason := Some msg |} →
  msg = "Microphone permission denied" ∨
  ∃ e : VoiceError, UserOnError e ∈ trace (run p evs initial) ∧ message e = msg.
Proof.
  intros Hp. revert msg.
  cut (reasons_reported (run p evs initial)); [by intros [_ H]|].
  induction evs as [|ev evs IH] using rev_ind.
  - split; cbn; [discriminate | discriminate].
  - rewrite run_app. cbn. unfold step. rewrite exec_bind.
    by apply reasons_reported_effect, reasons_reported_handle.
Qed.

Lemma status_reason_was_reported_witness :
  onError sample_props = true ∧
  status (run sample_props
            (attempt_events (sample_outcomes granted rejected fulfilled fulfilled))
            initial) =
    {| value := Error;
       reason := Some "We could not connect to the voice. Please try again." |} ∧
  ("We could not connect to the voice. Please try again." =
     "Microphone permission denied" ∨
   ∃ e : VoiceError,
     UserOnError e ∈
       trace (run sample_props
                (attempt_events (sample_outcomes granted rejected fulfilled fulfilled))
                initial) ∧
     message e = "We could not connect to the voice. Please try again.").
Proof.
  split; [reflexivity|]. split; [reflexivity|].
  exact (status_reason_was_reported sample_props
           (attempt_events (sample_outcomes granted rejected fulfilled fulfilled))
           "We could not connect to the voice. Please try again."
           eq_refl eq_refl).
Defined.

(** ** Further properties of [connect] *)

(** X10: an attempt whose transport connects reports nothing.  From any
    state, also a failed one, it ends with a null error and every error flag
    of the snapshot cleared, and the user's [onError] is not called during
    it, even when [mic.start] or [player.initPlayer] settles rejected. *)
Theorem connected_transport_reports_nothing (p : Props) (o : Outcomes) (s : State) :
  getStream_result o = granted →
  client_connect_result o = fulfilled →
  let s' := exec (connect_attempt p o) s in
  error s' = None ∧
  (ctx_isError (ctx s'), ctx_isSocketError (ctx s'),
   ctx_isAudioError (ctx s'), ctx_isMicrophoneError (ctx s')) =
    (false, false, false, false) ∧
  onError_calls (trace s') = onError_calls (trace s).
Proof.
  intros Hg Hf. cbv zeta. rewrite connect_attempt_joined by done.
  split; [done|]. split; [done|].
  cbn [trace]. rewrite onError_calls_app.
  assert (H0 : ∀ c, onError_calls [GetStream; ClientConnect c; MicStart; PlayerInit] = 0)
    by reflexivity.
  rewrite H0. lia.
Qed.

Lemma connected_transport_reports_nothing_witness :
  getStream_result (sample_outcomes granted fulfilled rejected fulfilled) = granted ∧
  client_connect_result (sample_outcomes granted fulfilled rejected fulfilled) =
    fulfilled ∧
  error failed_state ≠ None ∧
  error (exec (connect_attempt sample_props
                 (sample_outcomes granted fulfilled rejected fulfilled))
           failed_state) = None ∧
  onError_calls
    (trace (exec (connect_attempt sample_props
                    (sample_outcomes granted fulfilled rejected fulfilled))
              failed_state)) =
  onError_calls (trace failed_state).
Proof.
  split; [reflexivity|]. split; [reflexivity|]. split; [discriminate|].
  pose proof (connected_transport_reports_nothing sample_props
                (sample_outcomes granted fulfilled rejected fulfilled)
                failed_state eq_refl eq_refl) as (He & _ & Hn).
  split; [exact He | exact Hn].
Defined.

(** X11: a failed attempt reports exactly once.  When the permission is
    denied, or granted with a rejecting transport, and the user passed
    [onError], the attempt calls [onError] exactly once, with a 'mic_error'
    in the first case and a 'socket_error' in the second, leaves this error
    in the error state, and its last four calls are the teardown. *)
Theorem failed_attempt_reports_once (p : Props) (o : Outcomes) (s : State) :
  onError p = true →
  getStream_result o = denied ∨ client_connect_result o = rejected →
  let s' := exec (connect_attempt p o) s in
  let e := match getStream_result o with
           | denied => mic_denied
           | granted => connect_failed
           end in
  error s' = Some e ∧
  onError_calls (trace s') = onError_calls (trace s) + 1 ∧
  filter (λ c, is_UserOnError c = true) (drop (length (trace s)) (trace s')) =
    [UserOnError e] ∧
  ∃ before : list Call,
    trace s' = before ++ [ClientDisconnect; PlayerStopAll; MicStop; StoreDisconnect].
Proof.
  intros Hp Hfail. cbv zeta.
  destruct (getStream_result o) eqn:Hperm.
  - destruct Hfail as [Hd | Hr]; [discriminate|].
    rewrite connect_attempt_rejected by done. cbn [error trace]. rewrite Hp.
    split; [done|]. split; [|split].
    + rewrite onError_calls_app.
      assert (H1 : ∀ c, onError_calls ([GetStream; ClientConnect c] ++
                          [UserOnError connect_failed] ++ teardown) = 1)
        by reflexivity.
      by rewrite H1.
    + by rewrite drop_app_length.
    + eexists (trace s ++ [_; _; _]). by rewrite <- app_assoc.
  - rewrite connect_attempt_denied by done. cbn [error trace]. rewrite Hp.
    split; [done|]. split; [|split].
    + rewrite onError_calls_app.
      assert (H1 : onError_calls ([GetStream] ++
                     [UserOnError mic_denied] ++ teardown) = 1)
        by reflexivity.
      by rewrite H1.
    + by rewrite drop_app_length.
    + eexists (trace s ++ [_; _]). by rewrite <- app_assoc.
Qed.

Lemma failed_attempt_reports_once_witness :
  onError sample_props = true ∧
  (getStream_result (sample_outcomes denied fulfilled fulfilled fulfilled) = denied ∨
   client_connect_result (sample_outcomes denied fulfilled fulfilled fulfilled) =
     rejected) ∧
  error (exec (connect_attempt sample_props
                 (sample_outcomes denied fulfilled fulfilled fulfilled))
           connected_state) = Some mic_denied ∧
  onError_calls
    (trace (exec (connect_attempt sample_props
                    (sample_outcomes denied fulfilled fulfilled fulfilled))
              connected_state)) =
  onError_calls (trace connected_state) + 1.
Proof.
  split; [reflexivity|].
  assert (Hfail :
    getStream_result (sample_outcomes denied fulfilled fulfilled fulfilled) = denied ∨
    client_connect_result (sample_outcomes denied fulfilled fulfilled fulfilled) =
      rejected) by (left; reflexivity).
  split; [exact Hfail|].
  pose proof (failed_attempt_reports_once sample_props
                (sample_outcomes denied fulfilled fulfilled fulfilled)
                connected_state eq_refl Hfail) as (He & Hn & _).
  split; [exact He | exact Hn].
Defined.

(** ** [connect] and [disconnect] interleaved *)

(** X12: [disconnect] does not cancel a pending [connect].  When the
    collaborators all succeed and the [disconnect] of the current render
    runs at any of the three points where [connect] is suspended, whatever
    its permission and argument, [connect] still calls what is left of
    [client.connect], [mic.start] and [player.initPlayer] and the provider
    ends 'connected' with a null error, although the collaborators were torn
    down on the way. *)
Theorem disconnect_does_not_cancel_connect (p : Props) (o : Outcomes) (i : nat)
    (micPermission : Permission) (disconnectOnError : option bool) (s : State) :
  getStream_result o = granted →
  client_connect_result o = fulfilled →
  mic_start_result o = fulfilled →
  player_initPlayer_result o = fulfilled →
  (1 ≤ i ≤ 3)%nat →
  let d := CallDisconnect micPermission Connecting disconnectOnError in
  let s' := run p (interrupted_attempt i d o) s in
  status s' = {| value := Connected; reason := None |} ∧
  error s' = None ∧
  ∃ before after : list Call,
    trace s' = trace s ++ before ++ teardown ++ after ∧
    before ++ after =
      [GetStream; ClientConnect (merged_config (config p) (encodingRef_current o));
       MicStart; PlayerInit].
Proof.
  destruct o as [perm enc tr mic pl]. cbn. intros -> -> -> -> Hi.
  destruct i as [|[|[|[|i]]]]; try lia.
  - split; [|split].
    + destruct micPermission, disconnectOnError as [[]|]; by vm_compute.
    + destruct micPermission, disconnectOnError as [[]|]; by vm_compute.
    + exists [GetStream], [ClientConnect (merged_config (config p) enc);
                           MicStart; PlayerInit].
      split; [|done].
      destruct micPermission, disconnectOnError as [[]|];
        unfold interrupted_attempt, run, step, handle; cbn; provider_run;
        provider_decide; by rewrite <- ?app_assoc.
  - split; [|split].
    + destruct micPermission, disconnectOnError as [[]|]; by vm_compute.
    + destruct micPermission, disconnectOnError as [[]|]; by vm_compute.
    + exists [GetStream; ClientConnect (merged_config (config p) enc)],
             [MicStart; PlayerInit].
      split; [|done].
      destruct micPermission, disconnectOnError as [[]|];
        unfold interrupted_attempt, run, step, handle; cbn; provider_run;
        provider_decide; by rewrite <- ?app_assoc.
  - split; [|split].
    + destruct micPermission, disconnectOnError as [[]|]; by vm_compute.
    + destruct micPermission, disconnectOnError as [[]|]; by vm_compute.
    + exists [GetStream; ClientConnect (merged_config (config p) enc);
              MicStart; PlayerInit], [].
      split; [|done].
      destruct micPermission, disconnectOnError as [[]|];
        unfold interrupted_attempt, run, step, handle; cbn; provider_run;
        provider_decide; by rewrite <- ?app_assoc.
Qed.

Lemma disconnect_does_not_cancel_connect_witness :
  getStream_result (sample_outcomes granted fulfilled fulfilled fulfilled) = granted ∧
  client_connect_result (sample_outcomes granted fulfilled fulfilled fulfilled) =
    fulfilled ∧
  mic_start_result (sample_outcomes granted fulfilled fulfilled fulfilled) =
    fulfilled ∧
  player_initPlayer_result (sample_outcomes granted fulfilled fulfilled fulfilled) =
    fulfilled ∧
  (1 ≤ 3 ≤ 3)%nat ∧
  status (run sample_props
            [CallConnect;
             GetStreamSettled granted {| sampleRate := 44100; channelCount := 1 |};
             ClientConnectSettled fulfilled;
             CallDisconnect granted Connecting None;
             JoinSettled fulfilled fulfilled] initial) =
    {| value := Connected; reason := None |}.
Proof.
  repeat (split; [reflexivity || lia|]).
  pose proof (disconnect_does_not_cancel_connect sample_props
                (sample_outcomes granted fulfilled fulfilled fulfilled) 3
                granted None initial eq_refl eq_refl eq_refl eq_refl
                (conj (le_S _ _ (le_S _ _ (le_n 1))) (le_n 3))) as [Hst _].
  exact Hst.
Defined.

(** X13: a plain [disconnect()] while [connect] waits for the microphone
    stream hides a denied permission: when the permission then comes back
    'denied', the error state is the 'mic_error' and the user's [onError] is
    called, but the status stays 'disconnected' and nothing more is torn
    down. *)
Theorem disconnect_hides_denied_permission (p : Props)
    (micPermission : Permission) (enc : Encoding) (s : State) :
  let s' := run p [CallConnect;
                   CallDisconnect micPermission Connecting None;
                   GetStreamSettled denied enc] s in
  status s' = {| value := Disconnected; reason := None |} ∧
  error s' = Some mic_denied ∧
  trace s' =
    trace s ++ [GetStream] ++ teardown ++
    (if onError p then [UserOnError mic_denied] else []).
Proof.
  destruct micPermission, (onError p) eqn:Hp;
    unfold run, step, handle; cbn; provider_run; rewrite ?Hp; cbn;
    provider_decide; repeat split; by rewrite <- ?app_assoc, ?app_nil_r.
Qed.

(** X14: a join that settles after an error does not leave the provider
    'connected'.  If the error state is set when [mic.start] and
    [player.initPlayer] both come back fulfilled, the status written by
    [connect] is overwritten by the effect in the same step: it ends as
    'error' with the message of the current error, and the collaborators are
    torn down (again). *)
Theorem late_join_after_error (p : Props) (e : VoiceError) (s : State) :
  error s = Some e →
  step p s (JoinSettled fulfilled fulfilled) =
  {| status := {| value := Error; reason := Some (message e) |};
     error := Some e;
     trace := trace s ++ [ClientDisconnect; PlayerStopAll; MicStop; StoreDisconnect] |}.
Proof.
  intros He. unfold step. rewrite exec_bind. cbn [handle].
  by rewrite (effect_fires e) by (provider_run; provider_decide; auto).
Qed.

Lemma late_join_after_error_witness :
  error failed_state =
    Some {| type := socket_error; message := "lost connection" |} ∧
  status (step sample_props failed_state (JoinSettled fulfilled fulfilled)) =
    {| value := Error; reason := Some "lost connection" |} ∧
  trace (step sample_props failed_state (JoinSettled fulfilled fulfilled)) =
    trace failed_state ++ teardown.
Proof.
  split; [reflexivity|].
  rewrite (late_join_after_error sample_props
             {| type := socket_error; message := "lost connection" |}
             failed_state eq_refl).
  split; reflexivity.
Defined.

Lemma effect_connected (s : State) :
  value (status (exec effect s)) = Connected → value (status s) = Connected.
Proof.
  destruct (error s) as [e|] eqn:He.
  - destruct (value (status s)) eqn:Hv; try done.
    + rewrite effect_idle by auto. congruence.
    + by rewrite (effect_fires e) by auto.
    + rewrite effect_idle by auto. congruence.
  - by rewrite effect_idle by auto.
Qed.

Lemma step_connected (p : Props) (s : State) (ev : Event) :
  value (status (step p s ev)) = Connected →
  ev = JoinSettled fulfilled fulfilled ∨ value (status s) = Connected.
Proof.
  unfold step. rewrite exec_bind. intros H%effect_connected. revert H.
  destruct ev as [ | permission enc | result | mic pl
                 | micPermission v arg | msg | msg | msg ]; cbn [handle].
  - provider_run. discriminate.
  - destruct permission; provider_run; provider_decide; destruct (onError p); auto.
  - destruct result; provider_run; destruct (onError p); auto.
  - destruct mic, pl; provider_run; provider_decide; auto.
  - rewrite status_disconnect.
    destruct micPermission, v, arg as [[]|]; provider_decide; auto; discriminate.
  - unfold onClientError. rewrite status_updateError. auto.
  - unfold onPlayerError. rewrite status_updateError. auto.
  - unfold onMicError. rewrite status_updateError. auto.
Qed.

(** X15: the status is 'connected' only after a join in which [mic.start]
    and [player.initPlayer] both settled fulfilled: no other callback, and no
    other outcome of the join, ever sets it. *)
Theorem connected_needs_fulfilled_join (p : Props) (evs : list Event) :
  value (status (run p evs initial)) = Connected →
  JoinSettled fulfilled fulfilled ∈ evs.
Proof.
  induction evs as [|ev evs IH] using rev_ind.
  - discriminate.
  - rewrite run_app. cbn. intros [-> | Hc]%step_connected; rewrite elem_of_app.
    + right. apply list_elem_of_singleton. done.
    + left. by apply IH.
Qed.

Lemma connected_needs_fulfilled_join_witness :
  value (status (run sample_props
                   (attempt_events (sample_outcomes granted fulfilled fulfilled fulfilled))
                   initial)) = Connected ∧
  JoinSettled fulfilled fulfilled ∈
    attempt_events (sample_outcomes granted fulfilled fulfilled fulfilled).
Proof.
  split; [reflexivity|].
  exact (connected_needs_fulfilled_join sample_props
           (attempt_events (sample_outcomes granted fulfilled fulfilled fulfilled))
           eq_refl).
Defined.
